(** * Voronoi relevance grid: the simulation core of [src/App.tsx]

    A shallow embedding of the relevance scoring, the per-frame physics
    (radius smoothing, centering, friction, integration), the pairwise
    collision pass, the bounds clamp and the cell generation of the
    [VoronoiRelevanceGrid] component, together with the properties its
    specification states about them.

    Numbers.  JavaScript numbers are modelled by the real numbers [R]:
    [+], [-], [*], [/], [Math.sqrt], [Math.cos], [Math.sin], [Math.min] and
    [Math.max] are the exact operations, and [Math.atan2] is the
    two-argument arctangent with the conventions of ECMAScript at the
    axes and at the origin.  Rounding and the special values of binary64
    are outside the model.

    Host functions.  [String.prototype.toLowerCase], [Math.random] and the
    [d3-delaunay] call [voronoi.renderCell] are not code of the repository;
    they are parameters of the development. *)

From Stdlib Require Import Reals Lra Lia String Ascii List.
From stdpp Require Import base list strings.

Open Scope R_scope.

(** ** Types ([src/App.tsx], lines 7-30) *)

Module Item.
Record t : Type := mk
  { id : string;
    title : string;
    category : string;
    image : string;
    tags : list string }.
End Item.

Module Point.
Record t : Type := mk
  { x : R;
    y : R;
    vx : R;
    vy : R;
    r : R;            (* current radius *)
    targetR : R;      (* target radius based on relevance *)
    id : string }.
End Point.

Module Cell.
(** [path] is what [voronoi.renderCell] returned: an SVG path, or nothing
    when the cell has no polygon.  [item] is the result of
    [MOCK_ITEMS.find]; the [!] of the source is erased at run time. *)
Record t : Type := mk
  { path : option string;
    item : option Item.t;
    relevance : R;
    center : R * R }.
End Cell.

(** ** Physics and layout constants (lines 51-57) *)

Definition CANVAS_WIDTH : R := 1200.
Definition CANVAS_HEIGHT : R := 800.
Definition BASE_RADIUS : R := 60.
Definition MAX_RADIUS : R := 180.
Definition FRICTION : R := 0.9.
Definition STIFFNESS : R := 0.05.

(** ** Strings *)

(** [s.includes(q)]: [q] occurs in [s] as a contiguous substring. *)
Fixpoint includes (s q : string) : bool :=
  String.prefix q s
  || match s with
     | EmptyString => false
     | String _ s' => includes s' q
     end.

(** [!query] for a string: true exactly for the empty string. *)
Definition falsy_string (s : string) : bool :=
  match s with
  | EmptyString => true
  | String _ _ => false
  end.

(** [a || b] on numbers: [b] when [a] is [0], else [a]. *)
Definition num_or (a b : R) : R :=
  if Req_dec_T a 0 then b else a.

(** [a > b] as the condition of a JavaScript conditional. *)
Definition gtb (a b : R) : bool :=
  if Rlt_dec b a then true else false.

(** [a < b] as the condition of a JavaScript conditional. *)
Definition ltb (a b : R) : bool :=
  if Rlt_dec a b then true else false.

(** [Math.atan2(y, x)] on the reals: the angle of the vector [(x, y)] in
    [(-PI, PI]], with ECMAScript's values on the axes and [0] at the
    origin ([x - x] is [+0] for finite [x], and [atan2(+0, +0)] is [+0]). *)
Definition atan2 (y x : R) : R :=
  match total_order_T x 0 with
  | inleft (left _) =>
      if Rle_dec 0 y then atan (y / x) + PI else atan (y / x) - PI
  | inleft (right _) =>
      match total_order_T y 0 with
      | inleft (left _) => - (PI / 2)
      | inleft (right _) => 0
      | inright _ => PI / 2
      end
  | inright _ => atan (y / x)
  end.

(** ** Mock data (lines 34-47) *)

Local Open Scope string_scope.

Definition MOCK_ITEMS : list Item.t :=
  [ Item.mk "1" "Neon Tokyo" "Cyberpunk"
      "https://images.unsplash.com/photo-1540979388789-6cee28a1cdc9?q=80&w=1000&auto=format&fit=crop"
      ["city"; "night"; "lights"; "neon"];
    Item.mk "2" "Alpine Solitude" "Nature"
      "https://images.unsplash.com/photo-1519681393784-d120267933ba?q=80&w=1000&auto=format&fit=crop"
      ["mountain"; "snow"; "winter"; "peace"];
    Item.mk "3" "Desert Mirage" "Nature"
      "https://images.unsplash.com/photo-1473580044384-7ba9967e16a0?q=80&w=1000&auto=format&fit=crop"
      ["sand"; "heat"; "dry"; "orange"];
    Item.mk "4" "Deep Ocean" "Abstract"
      "https://images.unsplash.com/photo-1551244072-5d12893278ab?q=80&w=1000&auto=format&fit=crop"
      ["blue"; "water"; "dark"; "mystery"];
    Item.mk "5" "Urban Jungle" "Architecture"
      "https://images.unsplash.com/photo-1449824913935-59a10b8d2000?q=80&w=1000&auto=format&fit=crop"
      ["building"; "green"; "city"; "modern"];
    Item.mk "6" "Cosmic Dust" "Space"
      "https://images.unsplash.com/photo-1534796636912-3b95b3ab5986?q=80&w=1000&auto=format&fit=crop"
      ["stars"; "galaxy"; "purple"; "dust"];
    Item.mk "7" "Glass Prism" "Abstract"
      "https://images.unsplash.com/photo-1504198458649-3128b932f49e?q=80&w=1000&auto=format&fit=crop"
      ["light"; "refraction"; "color"; "shape"];
    Item.mk "8" "Forest Mist" "Nature"
      "https://images.unsplash.com/photo-1441974231531-c6227db76b6e?q=80&w=1000&auto=format&fit=crop"
      ["trees"; "fog"; "green"; "morning"];
    Item.mk "9" "Cyber Circuit" "Tech"
      "https://images.unsplash.com/photo-1518770660439-4636190af475?q=80&w=1000&auto=format&fit=crop"
      ["computer"; "chip"; "data"; "future"];
    Item.mk "10" "Volcanic Ash" "Nature"
      "https://images.unsplash.com/photo-1462331940025-496dfbfc7564?q=80&w=1000&auto=format&fit=crop"
      ["fire"; "dark"; "smoke"; "power"];
    Item.mk "11" "Geometric Wall" "Architecture"
      "https://images.unsplash.com/photo-1486325212027-8081e485255e?q=80&w=1000&auto=format&fit=crop"
      ["pattern"; "white"; "shadow"; "minimal"];
    Item.mk "12" "Liquid Gold" "Abstract"
      "https://images.unsplash.com/photo-1500462918059-b1a0cb512f1d?q=80&w=1000&auto=format&fit=crop"
      ["yellow"; "fluid"; "shiny"; "metal"] ].

Local Close Scope string_scope.

(** [MOCK_ITEMS.find(i => i.id === pid)] *)
Definition findItem (pid : string) : option Item.t :=
  List.find (fun i => String.eqb (Item.id i) pid) MOCK_ITEMS.

(** Lower-casing of the letters [A]-[Z], the instance of [toLowerCase]
    used to run the model on the catalogue. *)
Definition asciiLower (c : ascii) : ascii :=
  let n := nat_of_ascii c in
  if (65 <=? n)%nat && (n <=? 90)%nat then ascii_of_nat (n + 32) else c.

Fixpoint lowerASCII (s : string) : string :=
  match s with
  | EmptyString => EmptyString
  | String c s' => String (asciiLower c) (lowerASCII s')
  end.

(** ** Sample data *)

Local Open Scope string_scope.

Definition neonTokyo : Item.t :=
  Item.mk "1" "Neon Tokyo" "Cyberpunk"
    "https://images.unsplash.com/photo-1540979388789-6cee28a1cdc9?q=80&w=1000&auto=format&fit=crop"
    ["city"; "night"; "lights"; "neon"].

(** Points of the first three items, all at the position [(100, 100)]. *)
Definition pointA : Point.t := Point.mk 100 100 0 0 60 60 "1".
Definition pointB : Point.t := Point.mk 100 100 0 0 60 60 "2".

(** A point at distance 5 of [pointA]. *)
Definition pointD : Point.t := Point.mk 103 104 0 0 60 60 "2".

(** A point whose radius is outside [[BASE_RADIUS, MAX_RADIUS]]; no run
    of the component produces it. *)
Definition oversized : Point.t := Point.mk 0 0 0 0 300 300 "1".

Definition twoCoincident : list Point.t := [pointA; pointB].

(** A diagram in which only the first site has a polygon, as for sites
    that all coincide. *)
Definition firstCellOnly (sites : list (R * R)) (box : R * R * R * R)
    (i : nat) : option string :=
  match i with
  | O => Some "M0,0L1200,0L1200,800L0,800Z"
  | S _ => None
  end.

(** Every call of [Math.random] returns one half. *)
Definition halves (k : nat) : R := 1 / 2.


(** A point far from [pointA]. *)
Definition pointF : Point.t := Point.mk 400 100 0 0 60 60 "2".

Local Close Scope string_scope.

Section Engine.

(** [String.prototype.toLowerCase]. *)
Variable toLowerCase : string -> string.

(** [voronoi.renderCell(i)] of [d3-delaunay], for the diagram of the given
    sites clipped to the given bounds [(xmin, ymin, xmax, ymax)]: the SVG
    path of cell [i], or nothing when the cell has no polygon. *)
Variable renderCell : list (R * R) -> R * R * R * R -> nat -> option string.

(** ** Relevance scoring (lines 61-74) *)

Definition calculateRelevance (query : string) (item : Item.t) : R :=
  if falsy_string query then 0.1
  else
    let q := toLowerCase query in
    let score := 0 in
    let score :=
      if includes (toLowerCase (Item.title item)) q
      then score + 0.6 else score in
    let score :=
      if includes (toLowerCase (Item.category item)) q
      then score + 0.3 else score in
    let score :=
      if existsb (fun t => includes (toLowerCase t) q) (Item.tags item)
      then score + 0.2 else score in
    let score :=
      if String.eqb (toLowerCase (Item.title item)) q
      then score + 0.4 else score in
    num_or (Rmin score 1.0) 0.05.

(** The score as the specification words it: a weight for each test that
    holds, the sum clamped above by 1, and 0.05 in place of 0. *)
Definition weight (w : R) (b : bool) : R := if b then w else 0.

Definition spec_score (query : string) (item : Item.t) : R :=
  let q := toLowerCase query in
  let sum :=
    weight 0.6 (includes (toLowerCase (Item.title item)) q)
    + weight 0.3 (includes (toLowerCase (Item.category item)) q)
    + weight 0.2 (existsb (fun t => includes (toLowerCase t) q) (Item.tags item))
    + weight 0.4 (String.eqb (toLowerCase (Item.title item)) q) in
  let clamped := Rmin sum 1 in
  if Req_dec_T clamped 0 then 0.05 else clamped.

(** The query matches nothing of the item. *)
Definition no_match (query : string) (item : Item.t) : Prop :=
  let q := toLowerCase query in
  includes (toLowerCase (Item.title item)) q = false
  /\ includes (toLowerCase (Item.category item)) q = false
  /\ existsb (fun t => includes (toLowerCase t) q) (Item.tags item) = false.

(** ** Initialisation effect (lines 86-96)

    [random k] is the value of the [k]-th call of [Math.random]. *)
Definition initPoints (random : nat -> R) : list Point.t :=
  imap (fun k item =>
          Point.mk (random (2 * k)%nat * CANVAS_WIDTH)
                   (random (2 * k + 1)%nat * CANVAS_HEIGHT)
                   0 0 BASE_RADIUS BASE_RADIUS (Item.id item))
       MOCK_ITEMS.

(** ** Query-change effect (lines 99-106) *)

(** [calculateRelevance(query, item)] where [item] may be [undefined]:
    reading [item.title] then throws, which an empty query never reaches. *)
Definition relevanceOf (query : string) (item : option Item.t) : option R :=
  match item with
  | Some it => Some (calculateRelevance query it)
  | None => if falsy_string query then Some 0.1 else None
  end.

(** The radius the effect writes for a relevance. *)
Definition targetRadius (relevance : R) : R :=
  BASE_RADIUS
  + (MAX_RADIUS - BASE_RADIUS) * (if gtb relevance 0.1 then relevance else 0).

Definition retarget (query : string) (p : Point.t) : option Point.t :=
  match relevanceOf query (findItem (Point.id p)) with
  | Some relevance =>
      Some (Point.mk (Point.x p) (Point.y p) (Point.vx p) (Point.vy p)
                     (Point.r p) (targetRadius relevance) (Point.id p))
  | None => None
  end.

(** [None]: the effect threw. *)
Definition updateTargets (query : string) (points : list Point.t)
  : option (list Point.t) :=
  mapM (retarget query) points.

(** ** Animation frame (lines 109-185) *)

(** *** 1. Physics step (lines 113-129) *)
Definition physicsStep (p : Point.t) : Point.t :=
  let r := Point.r p + (Point.targetR p - Point.r p) * 0.1 in
  let dx := CANVAS_WIDTH / 2 - Point.x p in
  let dy := CANVAS_HEIGHT / 2 - Point.y p in
  let vx := Point.vx p + dx * 0.001 in
  let vy := Point.vy p + dy * 0.001 in
  let vx := vx * FRICTION in
  let vy := vy * FRICTION in
  Point.mk (Point.x p + vx) (Point.y p + vy) vx vy r
           (Point.targetR p) (Point.id p).

(** *** 2. Collision resolution (lines 133-157) *)

(** [p.x += ex; p.y += ey] *)
Definition displace (p : Point.t) (ex ey : R) : Point.t :=
  Point.mk (Point.x p + ex) (Point.y p + ey) (Point.vx p) (Point.vy p)
           (Point.r p) (Point.targetR p) (Point.id p).

(** The body of the inner loop on the two points it reads. *)
Definition resolvePair (p1 p2 : Point.t) : Point.t * Point.t :=
  let dx := Point.x p2 - Point.x p1 in
  let dy := Point.y p2 - Point.y p1 in
  let dist := sqrt (dx * dx + dy * dy) in
  let minDist := (Point.r p1 + Point.r p2) * 0.8 in
  if ltb dist minDist then
    let force := (minDist - dist) * STIFFNESS in
    let angle := atan2 dy dx in
    let fx := cos angle * force in
    let fy := sin angle * force in
    (displace p1 (- fx) (- fy), displace p2 fx fy)
  else (p1, p2).

(** The body of the inner loop on the array: [points[i]] and [points[j]]
    are read, corrected and written back. *)
Definition collideAt (i j : nat) (points : list Point.t) : list Point.t :=
  match points !! i, points !! j with
  | Some p1, Some p2 =>
      let '(q1, q2) := resolvePair p1 p2 in
      <[j:=q2]> (<[i:=q1]> points)
  | _, _ => points
  end.

(** [for (j = i + 1; j < n; j++)] *)
Definition collideRow (n i : nat) (points : list Point.t) : list Point.t :=
  fold_left (fun pts j => collideAt i j pts) (seq (i + 1) (n - (i + 1))) points.

(** [for (i = 0; i < n; i++)] with [n = points.length] *)
Definition collide (points : list Point.t) : list Point.t :=
  let n := length points in
  fold_left (fun pts i => collideRow n i pts) (seq 0 n) points.

(** *** 3. Keep within bounds (lines 160-163) *)
Definition clampPoint (p : Point.t) : Point.t :=
  Point.mk (Rmax 0 (Rmin CANVAS_WIDTH (Point.x p)))
           (Rmax 0 (Rmin CANVAS_HEIGHT (Point.y p)))
           (Point.vx p) (Point.vy p) (Point.r p) (Point.targetR p)
           (Point.id p).

(** *** 4-5. Voronoi diagram and cell data (lines 167-181) *)
Definition bounds : R * R * R * R := (0, 0, CANVAS_WIDTH, CANVAS_HEIGHT).

Definition generateCells (points : list Point.t) : list Cell.t :=
  let sites := (fun p => (Point.x p, Point.y p)) <$> points in
  imap (fun i p =>
          Cell.mk (renderCell sites bounds i)
                  (findItem (Point.id p))
                  ((Point.r p - BASE_RADIUS) / (MAX_RADIUS - BASE_RADIUS))
                  (Point.x p, Point.y p))
       points.

(** The [display] style of the element rendered for a cell (line 261):
    [cell.path ? 'block' : 'none']. *)
Inductive display : Type := DisplayBlock | DisplayNone.

Definition cellDisplay (c : Cell.t) : display :=
  match Cell.path c with
  | Some d => if falsy_string d then DisplayNone else DisplayBlock
  | None => DisplayNone
  end.

(** The points after the three mutating stages of a frame. *)
Definition animatePoints (points : list Point.t) : list Point.t :=
  clampPoint <$> collide (physicsStep <$> points).

(** One call of [animate]: the mutated points and the cells handed to
    [setCells]. *)
Definition animate (points : list Point.t) : list Point.t * list Cell.t :=
  let points := animatePoints points in
  (points, generateCells points).

(** ** The component as a transition system *)

Record State : Type := mkState
  { points : list Point.t;      (* pointsRef.current *)
    cells : list Cell.t;        (* the cells state *)
    query : string }.

Inductive event : Type :=
| SetQuery (q : string)         (* the input changed, the effect re-ran *)
| Frame.                        (* requestAnimationFrame fired *)

(** After mounting: the initialisation effect, then the query effect for
    the initial query (the empty string). *)
Definition mounted (random : nat -> R) : option State :=
  match updateTargets EmptyString (initPoints random) with
  | Some pts => Some (mkState pts [] EmptyString)
  | None => None
  end.

Definition step (s : State) (e : event) : option State :=
  match e with
  | SetQuery q =>
      match updateTargets q (points s) with
      | Some pts => Some (mkState pts (cells s) q)
      | None => None
      end
  | Frame =>
      let '(pts, cs) := animate (points s) in
      Some (mkState pts cs (query s))
  end.

Inductive reachable : State -> Prop :=
| reach_mount random s :
    mounted random = Some s -> reachable s
| reach_step s e s' :
    reachable s -> step s e = Some s' -> reachable s'.

(** ** Definitions used to state the properties *)

(** The target radius as the specification words it. *)
Definition spec_targetRadius (score : R) : R :=
  if Rle_dec score 0.1 then BASE_RADIUS
  else BASE_RADIUS + (MAX_RADIUS - BASE_RADIUS) * score.

(** Both radii of a point lie between the base and the maximal radius. *)
Definition radius_ok (p : Point.t) : Prop :=
  BASE_RADIUS <= Point.r p <= MAX_RADIUS
  /\ BASE_RADIUS <= Point.targetR p <= MAX_RADIUS.

(** The point is the point of an item of the catalogue. *)
Definition known (p : Point.t) : Prop :=
  exists item, findItem (Point.id p) = Some item.

(** The position lies in the working rectangle. *)
Definition in_bounds (p : Point.t) : Prop :=
  0 <= Point.x p <= CANVAS_WIDTH /\ 0 <= Point.y p <= CANVAS_HEIGHT.

(** Everything of a point but its position. *)
Definition body (p : Point.t) : R * R * R * R * string :=
  (Point.vx p, Point.vy p, Point.r p, Point.targetR p, Point.id p).





(** [v] clamped to [[0, 1]]. *)
Definition clamp01 (v : R) : R := Rmax 0 (Rmin 1 v).

(** The normalised relevance of a radius. *)
Definition normalised (radius : R) : R :=
  (radius - BASE_RADIUS) / (MAX_RADIUS - BASE_RADIUS).

(** The pairs [(i, j)] in the order the two loops of the collision pass
    visit them. *)
Definition pairsOf (n : nat) : list (nat * nat) :=
  i ← seq 0 n; (fun j => (i, j)) <$> seq (i + 1) (n - (i + 1)).

(** The loop body at a pair. *)
Definition collidePair (pts : list Point.t) (ij : nat * nat) : list Point.t :=
  collideAt (fst ij) (snd ij) pts.






(** Cells without a polygon are left out of the output of a frame. *)
Definition omits_cells_without_polygon (pts : list Point.t) : Prop :=
  forall c, c ∈ generateCells pts -> Cell.path c <> None.

(** ** Definitions used to state the further properties *)



(** Both components of the velocity are within the bounds that friction
    and the centering force sustain inside the rectangle. *)
Definition speed_ok (p : Point.t) : Prop :=
  - 5.4 <= Point.vx p <= 5.4 /\ - 3.6 <= Point.vy p <= 3.6.

(** The events of a list, one after the other; [None] when the query
    effect threw on the way. *)
Fixpoint run (es : list event) (s : State) : option State :=
  match es with
  | [] => Some s
  | e :: es' =>
      match step s e with
      | Some s' => run es' s'
      | None => None
      end
  end.

(** The distance of two points. *)
Definition distance (p1 p2 : Point.t) : R :=
  sqrt ((Point.x p2 - Point.x p1) * (Point.x p2 - Point.x p1)
        + (Point.y p2 - Point.y p1) * (Point.y p2 - Point.y p1)).

(** The distance below which the resolver corrects a pair. *)
Definition minDistance (p1 p2 : Point.t) : R :=
  (Point.r p1 + Point.r p2) * 0.8.

(** No pair of different points of the array is closer than its minimal
    distance. *)
Definition separated (pts : list Point.t) : Prop :=
  forall i j p1 p2,
    (i < j)%nat -> pts !! i = Some p1 -> pts !! j = Some p2 ->
    minDistance p1 p2 <= distance p1 p2.

(** The texts of an item the score looks at. *)
Definition fields (item : Item.t) : list string :=
  Item.title item :: Item.category item :: Item.tags item.

(** * Properties *)

(** ** Strings *)

Lemma prefix_refl (s : string) : String.prefix s s = true.
Proof.
  induction s as [|c s IH]; simpl; [reflexivity|].
  destruct (ascii_dec c c) as [_|ne]; [exact IH | contradiction].
Qed.

Lemma includes_refl (s : string) : includes s s = true.
Proof.
  destruct s; simpl; [reflexivity|].
  rewrite prefix_refl.
  destruct (ascii_dec a a) as [_|ne]; [reflexivity | contradiction].
Qed.

Lemma eqb_includes (s q : string) :
  String.eqb s q = true -> includes s q = true.
Proof.
  intros E. apply String.eqb_eq in E. subst q. apply includes_refl.
Qed.

Lemma falsy_string_true (s : string) :
  falsy_string s = true <-> s = EmptyString.
Proof. destruct s; simpl; split; congruence. Qed.

Lemma falsy_string_false (s : string) :
  falsy_string s = false <-> s <> EmptyString.
Proof. destruct s; simpl; split; congruence. Qed.

(** ** Relevance *)

Ltac score_cases :=
  unfold num_or, Rmin, weight;
  repeat match goal with
         | |- context [Rle_dec ?a ?b] => destruct (Rle_dec a b)
         | |- context [Req_dec_T ?a ?b] => destruct (Req_dec_T a b)
         end;
  try lra.

Lemma calculateRelevance_empty (item : Item.t) :
  calculateRelevance EmptyString item = 0.1.
Proof. reflexivity. Qed.

Lemma calculateRelevance_nonempty (query : string) (item : Item.t) :
  query <> EmptyString ->
  calculateRelevance query item = spec_score query item.
Proof.
  intros Hq. apply falsy_string_false in Hq.
  unfold calculateRelevance, spec_score. rewrite Hq. cbv zeta.
  destruct (includes (toLowerCase (Item.title item)) (toLowerCase query)),
    (includes (toLowerCase (Item.category item)) (toLowerCase query)),
    (existsb _ (Item.tags item)),
    (String.eqb (toLowerCase (Item.title item)) (toLowerCase query));
    score_cases.
Qed.

Lemma spec_score_range (query : string) (item : Item.t) :
  0.05 <= spec_score query item <= 1.
Proof.
  unfold spec_score. cbv zeta.
  destruct (includes (toLowerCase (Item.title item)) (toLowerCase query)),
    (includes (toLowerCase (Item.category item)) (toLowerCase query)),
    (existsb _ (Item.tags item)),
    (String.eqb (toLowerCase (Item.title item)) (toLowerCase query));
    score_cases.
Qed.

Lemma calculateRelevance_range (query : string) (item : Item.t) :
  0.05 <= calculateRelevance query item <= 1.
Proof.
  destruct (falsy_string query) eqn:E.
  - apply falsy_string_true in E. subst. rewrite calculateRelevance_empty. lra.
  - apply falsy_string_false in E.
    rewrite calculateRelevance_nonempty by exact E. apply spec_score_range.
Qed.

Lemma spec_score_exact_title (query : string) (item : Item.t) :
  Item.title item = query -> spec_score query item = 1.
Proof.
  intros <-. unfold spec_score. cbv zeta.
  rewrite includes_refl, String.eqb_refl.
  destruct (includes (toLowerCase (Item.category item)) _), (existsb _ _);
    score_cases.
Qed.

Lemma spec_score_no_match (query : string) (item : Item.t) :
  no_match query item -> spec_score query item = 0.05.
Proof.
  intros (Ht & Hc & Hg). unfold spec_score. cbv zeta.
  rewrite Ht, Hc, Hg.
  destruct (String.eqb _ _) eqn:E.
  - apply eqb_includes in E. congruence.
  - score_cases.
Qed.

(** C1. The relevance score of an item for a query is 0.1 for the empty
    query; for any other query it is the sum of 0.6 when the lower-cased
    title contains the lower-cased query, 0.3 when the lower-cased category
    does, 0.2 when some lower-cased tag does and 0.4 when the lower-cased
    title equals the lower-cased query, clamped above by 1, with 0.05 in
    place of a clamped sum of 0.  A non-empty query equal to the title
    scores exactly 1, a non-empty query matching nothing scores 0.05, and
    no score is 0. *)
Theorem calculateRelevance_correct (query : string) (item : Item.t) :
  (query = EmptyString -> calculateRelevance query item = 0.1)
  /\ (query <> EmptyString ->
      calculateRelevance query item = spec_score query item)
  /\ (query <> EmptyString -> Item.title item = query ->
      calculateRelevance query item = 1)
  /\ (query <> EmptyString -> no_match query item ->
      calculateRelevance query item = 0.05)
  /\ calculateRelevance query item <> 0.
Proof.
  split; [intros ->; apply calculateRelevance_empty|].
  split; [apply calculateRelevance_nonempty|].
  split; [intros Hq Ht; rewrite calculateRelevance_nonempty by exact Hq;
          apply spec_score_exact_title, Ht|].
  split; [intros Hq Hn; rewrite calculateRelevance_nonempty by exact Hq;
          apply spec_score_no_match, Hn|].
  pose proof (calculateRelevance_range query item). lra.
Qed.

(** ** Target radius *)

Lemma gtb_true (a b : R) : gtb a b = true <-> b < a.
Proof. unfold gtb. destruct (Rlt_dec b a); split; auto; congruence. Qed.

Lemma gtb_false (a b : R) : gtb a b = false <-> a <= b.
Proof.
  unfold gtb. destruct (Rlt_dec b a); split; try congruence; lra.
Qed.

Lemma ltb_true (a b : R) : ltb a b = true <-> a < b.
Proof. unfold ltb. destruct (Rlt_dec a b); split; auto; congruence. Qed.

Lemma ltb_false (a b : R) : ltb a b = false <-> b <= a.
Proof.
  unfold ltb. destruct (Rlt_dec a b); split; try congruence; lra.
Qed.

Lemma targetRadius_spec (score : R) :
  targetRadius score = spec_targetRadius score.
Proof.
  unfold targetRadius, spec_targetRadius.
  destruct (gtb score 0.1) eqn:E;
    [apply gtb_true in E | apply gtb_false in E];
    destruct (Rle_dec score 0.1); lra.
Qed.

Lemma targetRadius_range (score : R) :
  score <= 1 -> BASE_RADIUS <= targetRadius score <= MAX_RADIUS.
Proof.
  intros H. unfold targetRadius, BASE_RADIUS, MAX_RADIUS.
  destruct (gtb score 0.1) eqn:E; [apply gtb_true in E|]; lra.
Qed.

Lemma retarget_inv (query : string) (p p' : Point.t) :
  retarget query p = Some p' ->
  exists relevance,
    relevanceOf query (findItem (Point.id p)) = Some relevance
    /\ p' = Point.mk (Point.x p) (Point.y p) (Point.vx p) (Point.vy p)
                     (Point.r p) (targetRadius relevance) (Point.id p).
Proof.
  unfold retarget.
  destruct (relevanceOf query (findItem (Point.id p))) as [rel|];
    [|discriminate].
  intros [= <-]. exists rel. split; reflexivity.
Qed.

Lemma relevanceOf_range (query : string) (oi : option Item.t) (rel : R) :
  relevanceOf query oi = Some rel -> 0.05 <= rel <= 1.
Proof.
  destruct oi as [it|]; simpl.
  - intros [= <-]. apply calculateRelevance_range.
  - destruct (falsy_string query); [intros [= <-]; lra | discriminate].
Qed.

Lemma retarget_known (query : string) (p : Point.t) :
  known p -> exists p', retarget query p = Some p'.
Proof.
  intros [item Hf]. unfold retarget. rewrite Hf. simpl. eauto.
Qed.


(** ** Physics step *)


(** ** Bounds clamp *)

Lemma clamp_range (hi v : R) : 0 <= hi -> 0 <= Rmax 0 (Rmin hi v) <= hi.
Proof.
  intros H. unfold Rmax, Rmin.
  destruct (Rle_dec hi v), (Rle_dec 0 _); lra.
Qed.

Lemma clampPoint_in_bounds (p : Point.t) : in_bounds (clampPoint p).
Proof.
  unfold in_bounds, clampPoint. simpl.
  split; apply clamp_range; unfold CANVAS_WIDTH, CANVAS_HEIGHT; lra.
Qed.

Lemma clampPoint_body (p : Point.t) : body (clampPoint p) = body p.
Proof. reflexivity. Qed.

(** C6. After the bounds clamp of a frame, whatever the points were
    before the frame, every point has [0 <= x <= W] and [0 <= y <= H];
    the clamp changes only [x] and [y], the velocities (and the radii and
    the identifier) are the ones it received. *)
Theorem clamp_keeps_in_bounds (pts : list Point.t) :
  Forall in_bounds (fst (animate pts))
  /\ (forall p, in_bounds (clampPoint p)
               /\ Point.vx (clampPoint p) = Point.vx p
               /\ Point.vy (clampPoint p) = Point.vy p
               /\ body (clampPoint p) = body p)
  /\ body <$> fst (animate pts) = body <$> collide (physicsStep <$> pts).
Proof.
  split; [|split].
  - unfold animate, animatePoints. simpl.
    apply Forall_fmap, Forall_true. intros p. apply clampPoint_in_bounds.
  - intros p. split; [apply clampPoint_in_bounds|]. repeat split.
  - unfold animate, animatePoints. simpl.
    rewrite <- list_fmap_compose. apply list_fmap_ext.
    intros i p _. apply clampPoint_body.
Qed.

(** ** What the collision pass leaves alone *)

Lemma fold_left_invariant {A B : Type} (f : A -> B -> A) (I : A -> Prop)
    (l : list B) (a : A) :
  I a -> (forall a' b, I a' -> In b l -> I (f a' b)) -> I (fold_left f l a).
Proof.
  revert a. induction l as [|b l IH]; intros a Ha Hf; simpl; [exact Ha|].
  apply IH.
  - apply Hf; [exact Ha | left; reflexivity].
  - intros a' b' Ha' Hb'. apply Hf; [exact Ha' | right; exact Hb'].
Qed.

Lemma displace_body (p : Point.t) (ex ey : R) : body (displace p ex ey) = body p.
Proof. reflexivity. Qed.

Lemma resolvePair_body (p1 p2 : Point.t) :
  body (fst (resolvePair p1 p2)) = body p1
  /\ body (snd (resolvePair p1 p2)) = body p2.
Proof.
  unfold resolvePair. cbv zeta.
  destruct (ltb _ _); simpl; split; reflexivity.
Qed.

Lemma collideAt_body (i j : nat) (pts : list Point.t) :
  body <$> collideAt i j pts = body <$> pts.
Proof.
  unfold collideAt.
  destruct (pts !! i) as [p1|] eqn:Hi; [|reflexivity].
  destruct (pts !! j) as [p2|] eqn:Hj; [|reflexivity].
  destruct (resolvePair_body p1 p2) as [H1 H2].
  destruct (resolvePair p1 p2) as [q1 q2]. simpl in H1, H2.
  rewrite !list_fmap_insert, H1, H2.
  rewrite (list_insert_id (body <$> pts) i (body p1))
    by (rewrite list_lookup_fmap, Hi; reflexivity).
  apply list_insert_id. rewrite list_lookup_fmap, Hj. reflexivity.
Qed.

Lemma collideRow_body (n i : nat) (pts : list Point.t) :
  body <$> collideRow n i pts = body <$> pts.
Proof.
  unfold collideRow.
  apply (fold_left_invariant _ (fun l => body <$> l = body <$> pts));
    [reflexivity|].
  intros l j Hl _. rewrite collideAt_body. exact Hl.
Qed.

Lemma collide_body (pts : list Point.t) :
  body <$> collide pts = body <$> pts.
Proof.
  unfold collide.
  apply (fold_left_invariant _ (fun l => body <$> l = body <$> pts));
    [reflexivity|].
  intros l i Hl _. rewrite collideRow_body. exact Hl.
Qed.


(** A property of the radii and the identifier of a point survives the
    collision pass and the clamp. *)
Lemma Forall_body_transfer (P : Point.t -> Prop) (l k : list Point.t) :
  (forall p q, body p = body q -> P p -> P q) ->
  body <$> k = body <$> l -> Forall P l -> Forall P k.
Proof.
  intros HP Hb Hl. apply Forall_lookup. intros i q Hq.
  assert (Hbq : (body <$> l) !! i = Some (body q))
    by (rewrite <- Hb, list_lookup_fmap, Hq; reflexivity).
  rewrite list_lookup_fmap in Hbq.
  destruct (l !! i) as [p|] eqn:Hp; [|discriminate].
  simpl in Hbq. assert (Hpq : body p = body q) by congruence.
  apply (HP p q Hpq). exact (Forall_lookup_1 _ _ _ _ Hl Hp).
Qed.

Lemma animatePoints_body (pts : list Point.t) :
  body <$> animatePoints pts = body <$> (physicsStep <$> pts).
Proof.
  unfold animatePoints.
  rewrite <- list_fmap_compose.
  rewrite (list_fmap_ext (body ∘ clampPoint) body)
    by (intros; apply clampPoint_body).
  apply collide_body.
Qed.

(** ** The radius invariant *)

Lemma radius_ok_body (p q : Point.t) :
  body p = body q -> radius_ok p -> radius_ok q.
Proof.
  unfold body, radius_ok. intros [= _ _ -> ->]. tauto.
Qed.

Lemma physicsStep_radius_ok (p : Point.t) :
  radius_ok p -> radius_ok (physicsStep p).
Proof.
  unfold radius_ok, physicsStep, BASE_RADIUS, MAX_RADIUS. simpl. lra.
Qed.

Lemma retarget_radius_ok (query : string) (p p' : Point.t) :
  retarget query p = Some p' ->
  BASE_RADIUS <= Point.targetR p' <= MAX_RADIUS
  /\ Point.r p' = Point.r p /\ Point.id p' = Point.id p.
Proof.
  intros H. apply retarget_inv in H. destruct H as (rel & Hrel & ->).
  simpl. split; [|split; reflexivity].
  apply targetRadius_range. apply relevanceOf_range in Hrel. lra.
Qed.

Lemma initPoints_radii (random : nat -> R) :
  Forall (fun p => Point.r p = BASE_RADIUS /\ Point.targetR p = BASE_RADIUS
                   /\ Point.vx p = 0 /\ Point.vy p = 0)
         (initPoints random).
Proof.
  apply Forall_lookup. intros i p Hp. unfold initPoints in Hp.
  rewrite list_lookup_imap in Hp.
  destruct (MOCK_ITEMS !! i); [|discriminate].
  injection Hp as <-. simpl. repeat split.
Qed.

Lemma initPoints_ids (random : nat -> R) :
  Point.id <$> initPoints random = Item.id <$> MOCK_ITEMS.
Proof. reflexivity. Qed.

Lemma updateTargets_radius_ok (query : string) (pts pts' : list Point.t) :
  updateTargets query pts = Some pts' ->
  Forall (fun p => BASE_RADIUS <= Point.r p <= MAX_RADIUS) pts ->
  Forall radius_ok pts'.
Proof.
  intros Hu Hr. apply mapM_Some in Hu.
  apply Forall_lookup. intros i p' Hp'.
  destruct (Forall2_lookup_r _ _ _ _ _ Hu Hp') as (p & Hp & Hre).
  apply retarget_radius_ok in Hre. destruct Hre as (Ht & Hrr & _).
  split; [|exact Ht]. rewrite Hrr.
  exact (Forall_lookup_1 _ _ _ _ Hr Hp).
Qed.

Lemma updateTargets_ids (query : string) (pts pts' : list Point.t) :
  updateTargets query pts = Some pts' ->
  Point.id <$> pts' = Point.id <$> pts.
Proof.
  intros Hu. apply mapM_Some in Hu.
  induction Hu as [|p p' l l' Hp _ IH]; [reflexivity|].
  apply retarget_radius_ok in Hp. destruct Hp as (_ & _ & Hid).
  rewrite !fmap_cons, Hid, IH. reflexivity.
Qed.

Lemma animatePoints_radius_ok (pts : list Point.t) :
  Forall radius_ok pts -> Forall radius_ok (animatePoints pts).
Proof.
  intros H.
  apply (Forall_body_transfer radius_ok (physicsStep <$> pts));
    [apply radius_ok_body | apply animatePoints_body |].
  apply Forall_fmap. eapply Forall_impl; [exact H|].
  intros p. apply physicsStep_radius_ok.
Qed.

Lemma animatePoints_ids (pts : list Point.t) :
  Point.id <$> animatePoints pts = Point.id <$> pts.
Proof.
  assert (E : forall l : list Point.t,
             Point.id <$> l = (fun b : R * R * R * R * string => snd b) <$> (body <$> l))
    by (intros l; rewrite <- list_fmap_compose; reflexivity).
  rewrite (E (animatePoints pts)), animatePoints_body, <- E.
  rewrite <- list_fmap_compose. reflexivity.
Qed.

Lemma mounted_radius_ok (random : nat -> R) (s : State) :
  mounted random = Some s -> Forall radius_ok (points s).
Proof.
  unfold mounted.
  destruct (updateTargets EmptyString (initPoints random)) as [pts|] eqn:E;
    [|discriminate].
  intros [= <-]. simpl. apply (updateTargets_radius_ok _ _ _ E).
  eapply Forall_impl; [apply initPoints_radii|].
  intros p (-> & _). unfold BASE_RADIUS, MAX_RADIUS. lra.
Qed.

Lemma step_radius_ok (s s' : State) (e : event) :
  step s e = Some s' -> Forall radius_ok (points s) ->
  Forall radius_ok (points s').
Proof.
  destruct e as [q|]; simpl.
  - destruct (updateTargets q (points s)) as [pts|] eqn:E; [|discriminate].
    intros [= <-] H. simpl. apply (updateTargets_radius_ok _ _ _ E).
    eapply Forall_impl; [exact H|]. intros p [Hr _]. exact Hr.
  - intros [= <-] H. simpl. apply animatePoints_radius_ok, H.
Qed.

Lemma reachable_radius_ok (s : State) :
  reachable s -> Forall radius_ok (points s).
Proof.
  induction 1 as [random s Hm | s e s' _ IH Hs].
  - exact (mounted_radius_ok _ _ Hm).
  - exact (step_radius_ok _ _ _ Hs IH).
Qed.

(** C5. The current radius of every point lies in
    [[BASE_RADIUS, MAX_RADIUS]] at all times: the initialisation sets
    [r = targetR = BASE_RADIUS]; every target radius the query effect
    writes lies in the interval; the update
    [r <- r + (targetR - r) * 0.1] keeps [r] in it; hence every point of
    every reachable state, and every point after the radius smoothing of a
    frame started in a reachable state, has its radius in the interval. *)
Theorem radius_invariant :
  (forall random,
      Forall (fun p => Point.r p = BASE_RADIUS
                       /\ Point.targetR p = BASE_RADIUS)
             (initPoints random))
  /\ (forall query p p',
        retarget query p = Some p' ->
        BASE_RADIUS <= Point.targetR p' <= MAX_RADIUS)
  /\ (forall p,
        BASE_RADIUS <= Point.r p <= MAX_RADIUS ->
        BASE_RADIUS <= Point.targetR p <= MAX_RADIUS ->
        BASE_RADIUS <= Point.r (physicsStep p) <= MAX_RADIUS)
  /\ (forall s,
        reachable s ->
        Forall (fun p => BASE_RADIUS <= Point.r p <= MAX_RADIUS) (points s)
        /\ Forall (fun p => BASE_RADIUS <= Point.r p <= MAX_RADIUS)
                  (physicsStep <$> points s)).
Proof.
  split; [|split; [|split]].
  - intros random. eapply Forall_impl; [apply initPoints_radii|].
    intros p (Hr & Ht & _). split; assumption.
  - intros query p p' H. apply retarget_radius_ok in H. tauto.
  - intros p Hr Ht.
    destruct (physicsStep_radius_ok p (conj Hr Ht)) as [H _]. exact H.
  - intros s Hs. apply reachable_radius_ok in Hs. split.
    + eapply Forall_impl; [exact Hs|]. intros p [H _]. exact H.
    + apply Forall_fmap. eapply Forall_impl; [exact Hs|].
      intros p H. destruct (physicsStep_radius_ok p H) as [H' _]. exact H'.
Qed.

(** ** Identifiers *)

Lemma MOCK_ITEMS_ids_NoDup : NoDup (Item.id <$> MOCK_ITEMS).
Proof. apply (bool_decide_unpack _). vm_compute. exact I. Qed.

Lemma MOCK_ITEMS_find :
  findItem <$> (Item.id <$> MOCK_ITEMS) = Some <$> MOCK_ITEMS.
Proof. reflexivity. Qed.

Lemma reachable_ids (s : State) :
  reachable s -> Point.id <$> points s = Item.id <$> MOCK_ITEMS.
Proof.
  induction 1 as [random s Hm | s e s' _ IH Hs].
  - unfold mounted in Hm.
    destruct (updateTargets EmptyString (initPoints random)) as [pts|] eqn:E;
      [|discriminate].
    injection Hm as <-. simpl.
    rewrite (updateTargets_ids _ _ _ E). apply initPoints_ids.
  - destruct e as [q|]; simpl in Hs.
    + destruct (updateTargets q (points s)) as [pts|] eqn:E; [|discriminate].
      injection Hs as <-. simpl. rewrite (updateTargets_ids _ _ _ E). exact IH.
    + injection Hs as <-. simpl. rewrite animatePoints_ids. exact IH.
Qed.

Lemma ids_known (pts : list Point.t) :
  Point.id <$> pts = Item.id <$> MOCK_ITEMS -> Forall known pts.
Proof.
  intros Hids. apply Forall_lookup. intros i p Hp.
  assert (H : (findItem <$> (Point.id <$> pts)) !! i
              = Some (findItem (Point.id p)))
    by (rewrite !list_lookup_fmap, Hp; reflexivity).
  rewrite Hids, MOCK_ITEMS_find, list_lookup_fmap in H.
  destruct (MOCK_ITEMS !! i) as [item|]; [|discriminate].
  exists item. simpl in H. congruence.
Qed.

(** The query effect does not throw on the points of a reachable state. *)
Lemma updateTargets_total (query : string) (pts : list Point.t) :
  Forall known pts -> exists pts', updateTargets query pts = Some pts'.
Proof.
  intros H. unfold updateTargets.
  assert (S : is_Some (mapM (retarget query) pts)).
  { apply mapM_is_Some. eapply Forall_impl; [exact H|].
    intros p Hp. destruct (retarget_known query p Hp) as [p' E].
    simpl. rewrite E. eauto. }
  destruct S as [pts' E]. eauto.
Qed.

Lemma mounted_total (random : nat -> R) : exists s, mounted random = Some s.
Proof.
  unfold mounted.
  destruct (updateTargets_total EmptyString (initPoints random)) as [pts E].
  - apply ids_known, initPoints_ids.
  - rewrite E. eauto.
Qed.

Lemma step_total (s : State) (e : event) :
  reachable s -> exists s', step s e = Some s'.
Proof.
  intros Hs. destruct e as [q|]; simpl.
  - destruct (updateTargets_total q (points s)) as [pts E].
    + apply ids_known, reachable_ids, Hs.
    + rewrite E. eauto.
  - eauto.
Qed.

(** ** Cells *)

Lemma generateCells_lookup (pts : list Point.t) (i : nat) :
  generateCells pts !! i
  = (fun p =>
       Cell.mk (renderCell ((fun p => (Point.x p, Point.y p)) <$> pts) bounds i)
               (findItem (Point.id p))
               (normalised (Point.r p))
               (Point.x p, Point.y p)) <$> pts !! i.
Proof. unfold generateCells. cbv zeta. apply list_lookup_imap. Qed.

Lemma generateCells_length (pts : list Point.t) :
  length (generateCells pts) = length pts.
Proof. unfold generateCells. cbv zeta. apply length_imap. Qed.

Lemma generateCells_items (pts : list Point.t) :
  Cell.item <$> generateCells pts = findItem <$> (Point.id <$> pts).
Proof.
  apply list_eq. intros i.
  rewrite !list_lookup_fmap, generateCells_lookup.
  destruct (pts !! i); reflexivity.
Qed.

Lemma normalised_range (radius : R) :
  BASE_RADIUS <= radius <= MAX_RADIUS ->
  0 <= normalised radius <= 1
  /\ clamp01 (normalised radius) = normalised radius.
Proof.
  intros H. unfold normalised, BASE_RADIUS, MAX_RADIUS in *.
  assert (R01 : 0 <= (radius - 60) / (180 - 60) <= 1) by lra.
  split; [exact R01|].
  unfold clamp01, Rmax, Rmin.
  destruct (Rle_dec 1 _), (Rle_dec 0 _); lra.
Qed.

Lemma generateCells_relevance (pts : list Point.t) :
  Forall radius_ok pts ->
  Forall2 (fun p c =>
             Cell.relevance c = clamp01 (normalised (Point.r p))
             /\ 0 <= Cell.relevance c <= 1)
          pts (generateCells pts).
Proof.
  intros H. apply Forall2_same_length_lookup.
  split; [symmetry; apply generateCells_length|].
  intros i p c Hp Hc. rewrite generateCells_lookup, Hp in Hc.
  injection Hc as <-. simpl.
  destruct (Forall_lookup_1 _ _ _ _ H Hp) as [Hr _].
  destruct (normalised_range _ Hr) as [Hn Hc]. rewrite Hc. tauto.
Qed.

Lemma reachable_cells_relevance (s : State) :
  reachable s -> Forall (fun c => 0 <= Cell.relevance c <= 1) (cells s).
Proof.
  induction 1 as [random s Hm | s e s' Hr IH Hs].
  - unfold mounted in Hm.
    destruct (updateTargets _ _); [|discriminate].
    injection Hm as <-. constructor.
  - destruct e as [q|]; simpl in Hs.
    + destruct (updateTargets q (points s)); [|discriminate].
      injection Hs as <-. exact IH.
    + injection Hs as <-. simpl.
      pose proof (generateCells_relevance (animatePoints (points s))
                    (animatePoints_radius_ok _ (reachable_radius_ok _ Hr)))
        as H2.
      apply Forall2_Forall_r with (1 := H2).
      apply Forall_true. tauto.
Qed.

(** C7. Every cell a frame publishes carries the relevance
    [(r - BASE_RADIUS) / (MAX_RADIUS - BASE_RADIUS)] of its point clamped
    to [[0, 1]], and the relevance of every published cell lies in
    [[0, 1]].  (The frame computes the quotient and applies no clamp; on
    the radii of a reachable state the clamp is the identity.) *)
Theorem published_relevance (s : State) :
  reachable s ->
  Forall (fun c => 0 <= Cell.relevance c <= 1) (cells s)
  /\ forall s',
      step s Frame = Some s' ->
      Forall2 (fun p c =>
                 Cell.relevance c = clamp01 (normalised (Point.r p))
                 /\ 0 <= Cell.relevance c <= 1)
              (points s') (cells s').
Proof.
  intros Hs. split; [apply reachable_cells_relevance, Hs|].
  intros s' [= <-]. simpl.
  apply generateCells_relevance, animatePoints_radius_ok,
    reachable_radius_ok, Hs.
Qed.

(** C8, as the frame does it.  A frame emits exactly one cell for every
    point, in the order of the points, whether or not the diagram has a
    polygon for it: the cell of point [i] carries what [renderCell]
    returned for [i], which is no path when there is no polygon, and the
    renderer gives such a cell the style [display: none].  A frame always
    completes, and in every reachable state the cells belong to pairwise
    different items of the catalogue, so no item has two cells. *)
Theorem cells_one_per_point :
  (forall pts : list Point.t,
      length (generateCells pts) = length pts
      /\ forall i p,
          pts !! i = Some p ->
          exists c,
            generateCells pts !! i = Some c
            /\ Cell.path c
               = renderCell ((fun p => (Point.x p, Point.y p)) <$> pts)
                            bounds i
            /\ Cell.item c = findItem (Point.id p)
            /\ Cell.center c = (Point.x p, Point.y p))
  /\ (forall c, Cell.path c = None -> cellDisplay c = DisplayNone)
  /\ (forall s, exists s',
         step s Frame = Some s'
         /\ cells s' = generateCells (points s')
         /\ length (cells s') = length (points s))
  /\ (forall s,
         reachable s ->
         NoDup (Cell.item <$> cells s)
         /\ Forall (fun c => exists item,
                       Cell.item c = Some item /\ In item MOCK_ITEMS)
                   (cells s)).
Proof.
  split; [|split; [|split]].
  - intros pts. split; [apply generateCells_length|].
    intros i p Hp. eexists. rewrite generateCells_lookup, Hp. simpl.
    split; [reflexivity|]. simpl. repeat split.
  - intros c Hc. unfold cellDisplay. rewrite Hc. reflexivity.
  - intros s. eexists. simpl. split; [reflexivity|]. simpl.
    split; [reflexivity|].
    rewrite generateCells_length. unfold animatePoints.
    rewrite length_fmap.
    assert (L : forall l : list Point.t, length (collide l) = length l).
    { intros l. rewrite <- (length_fmap body (collide l)), collide_body.
      apply length_fmap. }
    rewrite L. apply length_fmap.
  - intros s Hs.
    assert (Hitems : Cell.item <$> cells s = []
                     \/ Cell.item <$> cells s = Some <$> MOCK_ITEMS).
    { induction Hs as [random s Hm | s e s' Hr IH Hst].
      - unfold mounted in Hm.
        destruct (updateTargets _ _); [|discriminate].
        injection Hm as <-. left. reflexivity.
      - destruct e as [q|]; simpl in Hst.
        + destruct (updateTargets q (points s)); [|discriminate].
          injection Hst as <-. exact IH.
        + injection Hst as <-. simpl. right.
          rewrite generateCells_items, animatePoints_ids,
            (reachable_ids _ Hr).
          apply MOCK_ITEMS_find. }
    assert (Hnd : NoDup (Some <$> MOCK_ITEMS)).
    { apply (NoDup_fmap_2 Some).
      apply (NoDup_fmap_1 Item.id), MOCK_ITEMS_ids_NoDup. }
    split.
    + destruct Hitems as [-> | ->]; [constructor | exact Hnd].
    + apply Forall_lookup. intros i c Hc.
      assert (Hi : (Cell.item <$> cells s) !! i = Some (Cell.item c))
        by (rewrite list_lookup_fmap, Hc; reflexivity).
      destruct Hitems as [E | E]; rewrite E in Hi; [discriminate|].
      rewrite list_lookup_fmap in Hi.
      destruct (MOCK_ITEMS !! i) as [item|] eqn:Hm; [|discriminate].
      exists item. split; [simpl in Hi; congruence|].
      apply list_elem_of_In, list_elem_of_lookup. eauto.
Qed.

(** ** The direction of a correction *)

Lemma hypot_scale (x y : R) :
  x <> 0 -> sqrt (x * x + y * y) = Rabs x * sqrt (1 + (y / x)²).
Proof.
  intros Hx.
  replace (x * x + y * y) with (x² * (1 + (y / x)²))
    by (unfold Rsqr; field; exact Hx).
  rewrite sqrt_mult.
  - rewrite sqrt_Rsqr_abs. reflexivity.
  - apply Rle_0_sqr.
  - pose proof (Rle_0_sqr (y / x)). lra.
Qed.

Lemma root_pos (t : R) : 0 < sqrt (1 + t²).
Proof. apply sqrt_lt_R0. pose proof (Rle_0_sqr t). lra. Qed.

Lemma cos_shift (a : R) : cos (a - PI) = - cos a.
Proof. rewrite cos_minus, cos_PI, sin_PI. ring. Qed.

Lemma sin_shift (a : R) : sin (a - PI) = - sin a.
Proof. rewrite sin_minus, cos_PI, sin_PI. ring. Qed.

Lemma atan2_direction (dy dx : R) :
  sqrt (dx * dx + dy * dy) * cos (atan2 dy dx) = dx
  /\ sqrt (dx * dx + dy * dy) * sin (atan2 dy dx) = dy.
Proof.
  unfold atan2.
  destruct (total_order_T dx 0) as [[Hneg | Hzero] | Hpos].
  - assert (Hx : dx <> 0) by lra.
    rewrite (hypot_scale dx dy Hx), (Rabs_left dx Hneg).
    pose proof (root_pos (dy / dx)) as Hs.
    destruct (Rle_dec 0 dy).
    + rewrite neg_cos, neg_sin, cos_atan, sin_atan. split; field; lra.
    + rewrite cos_shift, sin_shift, cos_atan, sin_atan. split; field; lra.
  - subst dx.
    replace (0 * 0 + dy * dy) with (dy²) by (unfold Rsqr; ring).
    rewrite sqrt_Rsqr_abs.
    destruct (total_order_T dy 0) as [[Hn | Hz] | Hp].
    + rewrite cos_neg, sin_neg, cos_PI2, sin_PI2, (Rabs_left dy Hn).
      split; ring.
    + subst dy. rewrite Rabs_R0. split; ring.
    + rewrite cos_PI2, sin_PI2, (Rabs_right dy) by lra. split; ring.
  - assert (Hx : dx <> 0) by lra.
    rewrite (hypot_scale dx dy Hx), (Rabs_right dx) by lra.
    pose proof (root_pos (dy / dx)) as Hs.
    rewrite cos_atan, sin_atan. split; field; lra.
Qed.

Lemma atan2_unit (dy dx : R) :
  cos (atan2 dy dx) * cos (atan2 dy dx) + sin (atan2 dy dx) * sin (atan2 dy dx) = 1.
Proof.
  pose proof (sin2_cos2 (atan2 dy dx)) as H. unfold Rsqr in H. lra.
Qed.


(** ** The correction of a pair *)

Lemma resolvePair_far (p1 p2 : Point.t) :
  let dx := Point.x p2 - Point.x p1 in
  let dy := Point.y p2 - Point.y p1 in
  (Point.r p1 + Point.r p2) * 0.8 <= sqrt (dx * dx + dy * dy) ->
  resolvePair p1 p2 = (p1, p2).
Proof.
  intros dx dy H. unfold resolvePair. fold dx dy. cbv zeta.
  apply ltb_false in H. rewrite H. reflexivity.
Qed.

Lemma resolvePair_near (p1 p2 : Point.t) :
  let dx := Point.x p2 - Point.x p1 in
  let dy := Point.y p2 - Point.y p1 in
  let dist := sqrt (dx * dx + dy * dy) in
  let minDist := (Point.r p1 + Point.r p2) * 0.8 in
  let force := (minDist - dist) * STIFFNESS in
  let ux := cos (atan2 dy dx) in
  let uy := sin (atan2 dy dx) in
  dist < minDist ->
  resolvePair p1 p2
  = (displace p1 (- (ux * force)) (- (uy * force)),
     displace p2 (ux * force) (uy * force)).
Proof.
  intros dx dy dist minDist force ux uy H. unfold resolvePair.
  fold dx dy. fold dist. fold minDist. cbv zeta.
  apply ltb_true in H. rewrite H. reflexivity.
Qed.



Lemma collideAt_lookup (i j : nat) (pts : list Point.t) (p1 p2 : Point.t) :
  pts !! i = Some p1 -> pts !! j = Some p2 ->
  collideAt i j pts
  = <[j:=snd (resolvePair p1 p2)]> (<[i:=fst (resolvePair p1 p2)]> pts).
Proof.
  intros Hi Hj. unfold collideAt. rewrite Hi, Hj.
  destruct (resolvePair p1 p2). reflexivity.
Qed.

(** ** One pass over the pairs *)

Lemma fold_left_fmap {A B C : Type} (f : A -> C -> A) (h : B -> C)
    (l : list B) (a : A) :
  fold_left f (h <$> l) a = fold_left (fun a b => f a (h b)) l a.
Proof.
  revert a. induction l as [|b l IH]; intros a; [reflexivity|].
  rewrite fmap_cons. simpl. apply IH.
Qed.

Lemma collide_rows (n : nat) (rows : list nat) (pts : list Point.t) :
  fold_left (fun pts i => collideRow n i pts) rows pts
  = fold_left collidePair
      (i ← rows; (fun j => (i, j)) <$> seq (i + 1) (n - (i + 1))) pts.
Proof.
  revert pts. induction rows as [|i rows IH]; intros pts; [reflexivity|].
  rewrite bind_cons, fold_left_app, fold_left_fmap. simpl. rewrite <- IH.
  reflexivity.
Qed.

Lemma collide_pass (pts : list Point.t) :
  collide pts = fold_left collidePair (pairsOf (length pts)) pts.
Proof. unfold collide, pairsOf. cbv zeta. apply collide_rows. Qed.

Lemma pairsOf_spec (n i j : nat) :
  (i, j) ∈ pairsOf n <-> (i < j < n)%nat.
Proof.
  unfold pairsOf. rewrite list_elem_of_bind. split.
  - intros (i' & Hj & Hi). apply list_elem_of_fmap in Hj.
    destruct Hj as (j' & [= -> ->] & Hj).
    apply elem_of_seq in Hj. apply elem_of_seq in Hi. lia.
  - intros H. exists i. split.
    + apply list_elem_of_fmap. exists j. split; [reflexivity|].
      apply elem_of_seq. lia.
    + apply elem_of_seq. lia.
Qed.

Lemma pairsOf_NoDup (n : nat) : NoDup (pairsOf n).
Proof.
  unfold pairsOf. apply NoDup_bind.
  - intros i1 i2 [a b] _ _ H1 H2.
    apply list_elem_of_fmap in H1, H2.
    destruct H1 as (? & [= -> _] & _). destruct H2 as (? & [= -> _] & _).
    reflexivity.
  - intros i _. apply NoDup_fmap_2_strong; [|apply NoDup_seq].
    intros j1 j2 _ _ [= ->]. reflexivity.
  - apply NoDup_seq.
Qed.

(** C3. In a frame the resolver makes exactly one pass, visiting every
    pair [i < j] of points once.  At a pair whose distance [dist] is below
    [minDist = (p1.r + p2.r) * 0.8] it moves [p1] by [- force] and [p2] by
    [+ force] along a unit vector [u] with [dist * u = p2 - p1], the unit
    vector from [p1] to [p2], where [force = (minDist - dist) * STIFFNESS]
    and [STIFFNESS = 0.05]; the two displacements are opposite and do not
    depend on the radii otherwise.  A pair at distance at least [minDist]
    is left as it is. *)
Theorem collision_pass_correct :
  STIFFNESS = 0.05
  /\ (forall p1 p2,
        let dx := Point.x p2 - Point.x p1 in
        let dy := Point.y p2 - Point.y p1 in
        let dist := sqrt (dx * dx + dy * dy) in
        let minDist := (Point.r p1 + Point.r p2) * 0.8 in
        let force := (minDist - dist) * STIFFNESS in
        (dist < minDist ->
         exists ux uy,
           ux * ux + uy * uy = 1
           /\ dist * ux = dx /\ dist * uy = dy
           /\ (0 < dist -> ux = dx / dist /\ uy = dy / dist)
           /\ resolvePair p1 p2
              = (displace p1 (- (ux * force)) (- (uy * force)),
                 displace p2 (ux * force) (uy * force)))
        /\ (minDist <= dist -> resolvePair p1 p2 = (p1, p2)))
  /\ (forall i j pts p1 p2,
        pts !! i = Some p1 -> pts !! j = Some p2 ->
        collideAt i j pts
        = <[j:=snd (resolvePair p1 p2)]>
            (<[i:=fst (resolvePair p1 p2)]> pts))
  /\ (forall pts,
        collide pts = fold_left collidePair (pairsOf (length pts)) pts)
  /\ (forall n i j, (i, j) ∈ pairsOf n <-> (i < j < n)%nat)
  /\ (forall n, NoDup (pairsOf n))
  /\ (forall pts,
        animatePoints pts
        = clampPoint
            <$> fold_left collidePair (pairsOf (length pts))
                  (physicsStep <$> pts)).
Proof.
  split; [reflexivity|].
  split; [|split; [apply collideAt_lookup|]].
  - intros p1 p2 dx dy dist minDist force. split.
    + intros H.
      exists (cos (atan2 dy dx)), (sin (atan2 dy dx)).
      destruct (atan2_direction dy dx) as [Hc Hs]. fold dist in Hc, Hs.
      split; [apply atan2_unit|].
      split; [exact Hc|]. split; [exact Hs|].
      split; [|apply (resolvePair_near p1 p2), H].
      intros Hd.
      split; apply (Rmult_eq_reg_l dist); try lra;
        [rewrite Hc | rewrite Hs]; field; lra.
    + apply resolvePair_far.
  - split; [apply collide_pass|].
    split; [apply pairsOf_spec|]. split; [apply pairsOf_NoDup|].
    intros pts. unfold animatePoints.
    rewrite collide_pass, length_fmap. reflexivity.
Qed.

(** ** The sum of the positions *)







Lemma collide_length (pts : list Point.t) : length (collide pts) = length pts.
Proof.
  rewrite <- (length_fmap body (collide pts)), collide_body.
  apply length_fmap.
Qed.

Lemma animatePoints_length (pts : list Point.t) :
  length (animatePoints pts) = length pts.
Proof.
  unfold animatePoints. rewrite length_fmap, collide_length.
  apply length_fmap.
Qed.


(** ** Coincident points *)



(** * Further properties *)

(** ** Substrings *)

Lemma prefix_append (q post : string) :
  String.prefix q (String.append q post) = true.
Proof.
  induction q as [|c q IH]; [destruct post; reflexivity|].
  change (String.append (String c q) post)
    with (String c (String.append q post)).
  simpl. destruct (ascii_dec c c) as [_|ne]; [exact IH | contradiction].
Qed.

Lemma includes_prefix (s q : string) :
  String.prefix q s = true -> includes s q = true.
Proof. intros H. destruct s; cbn [includes]; rewrite H; reflexivity. Qed.

Lemma includes_infix (pre q post : string) :
  includes (String.append pre (String.append q post)) q = true.
Proof.
  induction pre as [|c pre IH].
  - change (String.append EmptyString (String.append q post))
      with (String.append q post).
    apply includes_prefix, prefix_append.
  - change (String.append (String c pre) (String.append q post))
      with (String c (String.append pre (String.append q post))).
    cbn [includes]. rewrite IH. apply orb_true_r.
Qed.

Lemma prefix_split (q s : string) :
  String.prefix q s = true -> exists post, s = String.append q post.
Proof.
  revert s. induction q as [|c q IH]; intros s H.
  - exists s. reflexivity.
  - destruct s as [|d s]; simpl in H; [discriminate|].
    destruct (ascii_dec c d) as [->|]; [|discriminate].
    destruct (IH s H) as [post ->]. exists post. reflexivity.
Qed.

Lemma includes_split (s q : string) :
  includes s q = true ->
  exists pre post, s = String.append pre (String.append q post).
Proof.
  induction s as [|c s IH]; intros H.
  - cbn [includes] in H. rewrite orb_false_r in H.
    destruct (prefix_split _ _ H) as [post E].
    exists EmptyString, post. exact E.
  - cbn [includes] in H. apply orb_true_iff in H. destruct H as [H | H].
    + destruct (prefix_split _ _ H) as [post E].
      exists EmptyString, post. exact E.
    + destruct (IH H) as (pre & post & ->).
      exists (String c pre), post. reflexivity.
Qed.

(** ** More on the relevance score *)

Lemma calculateRelevance_flags (query : string) (item : Item.t) :
  query <> EmptyString ->
  let q := toLowerCase query in
  let t := includes (toLowerCase (Item.title item)) q in
  let c := includes (toLowerCase (Item.category item)) q in
  let g := existsb (fun t => includes (toLowerCase t) q) (Item.tags item) in
  (t = false -> c = false -> g = false ->
   calculateRelevance query item = 0.05)
  /\ (t = true -> 0.6 <= calculateRelevance query item)
  /\ (c = true -> 0.3 <= calculateRelevance query item)
  /\ (g = true -> 0.2 <= calculateRelevance query item)
  /\ In (calculateRelevance query item) [0.05; 0.2; 0.3; 0.5; 0.6; 0.8; 0.9; 1].
Proof.
  intros Hq q t c g.
  rewrite (calculateRelevance_nonempty query item Hq).
  unfold spec_score. fold q. fold t. fold c. fold g. cbv zeta.
  assert (He : String.eqb (toLowerCase (Item.title item)) q = true -> t = true)
    by apply eqb_includes.
  destruct t, c, g, (String.eqb (toLowerCase (Item.title item)) q);
    try (specialize (He eq_refl); discriminate);
    unfold weight, Rmin;
    repeat match goal with
           | |- context [Rle_dec ?a ?b] => destruct (Rle_dec a b)
           | |- context [Req_dec_T ?a ?b] => destruct (Req_dec_T a b)
           end;
    try lra;
    (repeat split; try discriminate; try (intros; lra);
     simpl; repeat (first [left; lra | right])).
Qed.


(** X2. For a non-empty query, an item scores above the baseline 0.1
    exactly when the lower-cased query occurs, as a contiguous piece, in
    the lower-cased title, category or one of the tags of the item; the
    score is then at least 0.2. *)
Theorem relevant_iff_occurs (query : string) (item : Item.t) :
  query <> EmptyString ->
  (0.1 < calculateRelevance query item
   <-> exists f pre post,
        In f (fields item)
        /\ toLowerCase f
           = String.append pre (String.append (toLowerCase query) post))
  /\ (0.1 < calculateRelevance query item ->
      0.2 <= calculateRelevance query item).
Proof.
  intros Hq.
  destruct (calculateRelevance_flags query item Hq)
    as (Hnone & Ht & Hc & Hg & Hin).
  cbv zeta in Hnone, Ht, Hc, Hg.
  split; [split|].
  - intros Hs.
    destruct (includes (toLowerCase (Item.title item)) (toLowerCase query))
      eqn:Et.
    { apply includes_split in Et. destruct Et as (pre & post & E).
      exists (Item.title item), pre, post. split; [left; reflexivity|exact E]. }
    destruct (includes (toLowerCase (Item.category item)) (toLowerCase query))
      eqn:Ec.
    { apply includes_split in Ec. destruct Ec as (pre & post & E).
      exists (Item.category item), pre, post.
      split; [right; left; reflexivity|exact E]. }
    destruct (existsb (fun t => includes (toLowerCase t) (toLowerCase query))
                (Item.tags item)) eqn:Eg.
    { apply existsb_exists in Eg. destruct Eg as (tag & Hin' & Ei).
      apply includes_split in Ei. destruct Ei as (pre & post & E).
      exists tag, pre, post. split; [right; right; exact Hin'|exact E]. }
    rewrite Hnone in Hs by reflexivity. lra.
  - intros (f & pre & post & Hf & E).
    assert (Hi : includes (toLowerCase f) (toLowerCase query) = true)
      by (rewrite E; apply includes_infix).
    destruct Hf as [<- | [<- | Hf]].
    + specialize (Ht Hi). lra.
    + specialize (Hc Hi). lra.
    + assert (Eg : existsb
                     (fun t => includes (toLowerCase t) (toLowerCase query))
                     (Item.tags item) = true)
        by (apply existsb_exists; exists f; split; assumption).
      specialize (Hg Eg). lra.
  - intros Hs. simpl in Hin. decompose [or] Hin; try contradiction; lra.
Qed.

(** ** More on the query effect *)

Lemma retarget_after (q1 q2 : string) (p p1 : Point.t) :
  retarget q1 p = Some p1 -> retarget q2 p1 = retarget q2 p.
Proof.
  intros H. apply retarget_inv in H. destruct H as (rel & _ & ->).
  reflexivity.
Qed.

Lemma mapM_pointwise {A B : Type} (f g : A -> option B) (l k : list A) :
  Forall2 (fun a b => f b = g a) l k -> mapM f k = mapM g l.
Proof.
  induction 1 as [|a b l k Hab _ IH]; [reflexivity|].
  simpl. rewrite Hab, IH. reflexivity.
Qed.

(** X3. Only the latest query counts: running the query effect for a
    query after it ran for another gives what running it for the latest
    alone gives, and running it twice for the same query changes nothing
    the second time. *)
Theorem latest_query_wins (q1 q2 : string) (pts pts1 : list Point.t) :
  updateTargets q1 pts = Some pts1 ->
  updateTargets q2 pts1 = updateTargets q2 pts
  /\ updateTargets q1 pts1 = Some pts1.
Proof.
  intros H1.
  assert (E : forall q, updateTargets q pts1 = updateTargets q pts).
  { intros q. unfold updateTargets. apply mapM_pointwise.
    apply mapM_Some in H1.
    eapply Forall2_impl; [exact H1|].
    intros p p1 Hp. exact (retarget_after _ q _ _ Hp). }
  split; [apply E|]. rewrite E. exact H1.
Qed.

Lemma retarget_None (query : string) (p : Point.t) :
  retarget query p = None
  <-> query <> EmptyString /\ findItem (Point.id p) = None.
Proof.
  unfold retarget, relevanceOf.
  destruct (findItem (Point.id p)) as [it|].
  - split; [discriminate | intros [_ H]; discriminate].
  - destruct (falsy_string query) eqn:E.
    + apply falsy_string_true in E.
      split; [discriminate | intros [H _]; contradiction].
    + apply falsy_string_false in E. split; [intros _; split|]; auto.
Qed.

(** X4. The query effect throws exactly when the query is not empty and
    some point carries an identifier that is not in the catalogue; for the
    empty query it never throws, whatever the identifiers, and sets every
    target radius to [BASE_RADIUS], keeping the number of points. *)
Theorem updateTargets_failure (query : string) (pts : list Point.t) :
  (updateTargets query pts = None
   <-> query <> EmptyString
       /\ Exists (fun p => findItem (Point.id p) = None) pts)
  /\ exists pts0,
      updateTargets EmptyString pts = Some pts0
      /\ length pts0 = length pts
      /\ Forall (fun p => Point.targetR p = BASE_RADIUS) pts0.
Proof.
  split.
  - unfold updateTargets. rewrite mapM_None. split.
    + intros H. apply Exists_exists in H. destruct H as (p & Hin & Hp).
      apply retarget_None in Hp. destruct Hp as [Hq Hf].
      split; [exact Hq|]. apply Exists_exists. eauto.
    + intros [Hq H]. apply Exists_exists in H. destruct H as (p & Hin & Hf).
      apply Exists_exists. exists p. split; [exact Hin|].
      apply retarget_None. split; assumption.
  - destruct (updateTargets EmptyString pts) as [pts0|] eqn:E.
    + exists pts0. split; [reflexivity|].
      pose proof E as E2. apply mapM_Some in E2. split.
      * symmetry. exact (Forall2_length _ _ _ E2).
      * apply Forall_lookup. intros i p' Hp'.
        destruct (Forall2_lookup_r _ _ _ _ _ E2 Hp') as (p & _ & Hre).
        apply retarget_inv in Hre. destruct Hre as (rel & Hrel & ->).
        simpl.
        assert (rel = 0.1) as ->.
        { destruct (findItem (Point.id p)); simpl in Hrel;
            injection Hrel as <-; reflexivity. }
        rewrite targetRadius_spec. unfold spec_targetRadius.
        destruct (Rle_dec 0.1 0.1); [reflexivity | lra].
    + exfalso. unfold updateTargets in E. apply mapM_None in E.
      apply Exists_exists in E. destruct E as (p & _ & Hp).
      apply retarget_None in Hp. destruct Hp as [Hq _]. contradiction.
Qed.

(** ** Initialisation and the shape of the state *)

Lemma reachable_cell_items (s : State) :
  reachable s ->
  cells s = [] \/ Cell.item <$> cells s = Some <$> MOCK_ITEMS.
Proof.
  induction 1 as [random s Hm | s e s' Hr IH Hst].
  - unfold mounted in Hm.
    destruct (updateTargets _ _); [|discriminate].
    injection Hm as <-. left. reflexivity.
  - destruct e as [q|]; simpl in Hst.
    + destruct (updateTargets q (points s)); [|discriminate].
      injection Hst as <-. exact IH.
    + injection Hst as <-. simpl. right.
      rewrite generateCells_items, animatePoints_ids, (reachable_ids _ Hr).
      apply MOCK_ITEMS_find.
Qed.

(** X5. In every reachable state there is exactly one point for every
    item of the catalogue, in the order of the catalogue (twelve points),
    and, once a frame has run, exactly one cell for every item, the
    [k]-th cell carrying the [k]-th item. *)
Theorem one_point_per_item (s : State) :
  reachable s ->
  Point.id <$> points s = Item.id <$> MOCK_ITEMS
  /\ length (points s) = 12%nat
  /\ (cells s = []
      \/ (length (cells s) = 12%nat
          /\ Cell.item <$> cells s = Some <$> MOCK_ITEMS)).
Proof.
  intros Hs. pose proof (reachable_ids s Hs) as Hid.
  split; [exact Hid|]. split.
  - rewrite <- (length_fmap Point.id), Hid. reflexivity.
  - destruct (reachable_cell_items s Hs) as [E | E]; [left; exact E|].
    right. split; [|exact E].
    rewrite <- (length_fmap Cell.item), E. reflexivity.
Qed.

(** ** The radius over several frames *)





(** ** Speed *)

Lemma physicsStep_speed_ok (p : Point.t) :
  in_bounds p -> speed_ok p -> speed_ok (physicsStep p).
Proof.
  unfold in_bounds, speed_ok, physicsStep, CANVAS_WIDTH, CANVAS_HEIGHT,
    FRICTION.
  simpl. lra.
Qed.

Lemma speed_ok_body (p q : Point.t) : body p = body q -> speed_ok p -> speed_ok q.
Proof. unfold body, speed_ok. intros [= -> -> _ _ _]. tauto. Qed.

Lemma animatePoints_speed_ok (pts : list Point.t) :
  Forall in_bounds pts -> Forall speed_ok pts ->
  Forall speed_ok (animatePoints pts).
Proof.
  intros Hb Hs.
  apply (Forall_body_transfer speed_ok (physicsStep <$> pts));
    [apply speed_ok_body | apply animatePoints_body |].
  apply Forall_fmap, Forall_lookup. intros i p Hp. simpl.
  apply physicsStep_speed_ok.
  - exact (Forall_lookup_1 _ _ _ _ Hb Hp).
  - exact (Forall_lookup_1 _ _ _ _ Hs Hp).
Qed.

Lemma animatePoints_in_bounds (pts : list Point.t) :
  Forall in_bounds (animatePoints pts).
Proof.
  unfold animatePoints. apply Forall_fmap, Forall_true.
  intros p. apply clampPoint_in_bounds.
Qed.

Lemma updateTargets_motion (query : string) (pts pts' : list Point.t) :
  updateTargets query pts = Some pts' ->
  Forall (fun p => in_bounds p /\ speed_ok p) pts ->
  Forall (fun p => in_bounds p /\ speed_ok p) pts'.
Proof.
  intros Hu H. apply mapM_Some in Hu.
  apply Forall_lookup. intros i p' Hp'.
  destruct (Forall2_lookup_r _ _ _ _ _ Hu Hp') as (p & Hp & Hre).
  apply retarget_inv in Hre. destruct Hre as (rel & _ & ->).
  exact (Forall_lookup_1 _ _ _ _ H Hp).
Qed.

Lemma step_motion (s s' : State) (e : event) :
  step s e = Some s' ->
  Forall (fun p => in_bounds p /\ speed_ok p) (points s) ->
  Forall (fun p => in_bounds p /\ speed_ok p) (points s').
Proof.
  destruct e as [q|]; simpl.
  - destruct (updateTargets q (points s)) as [pts|] eqn:E; [|discriminate].
    intros [= <-] H. simpl. exact (updateTargets_motion _ _ _ E H).
  - intros [= <-] H. simpl. apply Forall_and. split.
    + apply animatePoints_in_bounds.
    + apply Forall_and in H. destruct H as [Hb Hs].
      apply animatePoints_speed_ok; assumption.
Qed.

(** X8. Speeds stay bounded.  When the draws of [Math.random] lie in
    [[0, 1)], after mounting and any sequence of query changes and frames
    every point lies in the rectangle and has [|vx| <= 5.4] and
    [|vy| <= 3.6]: a point pressed against a wall does not build up
    speed without bound. *)
Theorem speed_bounded (random : nat -> R) (es : list event) (s0 s : State) :
  (forall k, 0 <= random k < 1) ->
  mounted random = Some s0 ->
  run es s0 = Some s ->
  Forall (fun p => in_bounds p /\ speed_ok p) (points s).
Proof.
  intros Hr Hm Hrun.
  assert (H0 : Forall (fun p => in_bounds p /\ speed_ok p) (points s0)).
  { unfold mounted in Hm.
    destruct (updateTargets EmptyString (initPoints random)) as [pts|] eqn:E;
      [|discriminate].
    injection Hm as <-. simpl. apply (updateTargets_motion _ _ _ E).
    apply Forall_lookup. intros i p Hp. unfold initPoints in Hp.
    rewrite list_lookup_imap in Hp.
    destruct (MOCK_ITEMS !! i); [|discriminate].
    injection Hp as <-.
    pose proof (Hr (i + (i + 0))%nat) as H1.
    pose proof (Hr (i + (i + 0) + 1)%nat) as H2.
    unfold in_bounds, speed_ok, CANVAS_WIDTH, CANVAS_HEIGHT.
    cbn [Point.x Point.y Point.vx Point.vy].
    repeat split; lra. }
  clear Hm. revert s0 H0 Hrun.
  induction es as [|e es IH]; intros s0 H0 Hrun; simpl in Hrun.
  - injection Hrun as <-. exact H0.
  - destruct (step s0 e) as [s1|] eqn:E; [|discriminate].
    apply (IH s1); [|exact Hrun]. exact (step_motion _ _ _ E H0).
Qed.

(** ** More on the collision pass *)




Lemma collideAt_far (i j : nat) (pts : list Point.t) :
  (forall p1 p2, pts !! i = Some p1 -> pts !! j = Some p2 ->
                 minDistance p1 p2 <= distance p1 p2) ->
  collideAt i j pts = pts.
Proof.
  intros H. unfold collideAt.
  destruct (pts !! i) as [p1|] eqn:Hi; [|reflexivity].
  destruct (pts !! j) as [p2|] eqn:Hj; [|reflexivity].
  rewrite (resolvePair_far p1 p2) by (apply (H p1 p2); reflexivity).
  rewrite (list_insert_id pts i p1 Hi). apply list_insert_id, Hj.
Qed.

(** X10. When no two points are closer than their minimal distance, the
    collision pass changes nothing. *)
Theorem collide_separated (pts : list Point.t) :
  separated pts -> collide pts = pts.
Proof.
  intros Hsep. unfold collide. cbv zeta.
  apply (fold_left_invariant _ (fun l => l = pts)); [reflexivity|].
  intros l i -> _. unfold collideRow.
  apply (fold_left_invariant _ (fun l => l = pts)); [reflexivity|].
  intros l j -> Hj. apply in_seq in Hj.
  apply collideAt_far. intros p1 p2 H1 H2.
  apply (Hsep i j p1 p2); [lia | exact H1 | exact H2].
Qed.

End Engine.

(** * The model on the catalogue *)

Local Open Scope string_scope.

Ltac run_tests :=
  repeat match goal with
         | |- context [existsb ?f ?l] =>
             let v := eval vm_compute in (existsb f l) in
             change (existsb f l) with v
         | |- context [includes ?a ?b] =>
             let v := eval vm_compute in (includes a b) in
             change (includes a b) with v
         | |- context [String.eqb ?a ?b] =>
             let v := eval vm_compute in (String.eqb a b) in
             change (String.eqb a b) with v
         end.

Ltac run_score :=
  unfold calculateRelevance; cbn [falsy_string Item.title Item.category
                                   Item.tags neonTokyo];
  run_tests; cbv iota zeta; unfold num_or, Rmin;
  repeat match goal with
         | |- context [Rle_dec ?a ?b] => destruct (Rle_dec a b)
         | |- context [Req_dec_T ?a ?b] => destruct (Req_dec_T a b)
         end;
  try lra.

Example score_empty_query : calculateRelevance lowerASCII "" neonTokyo = 0.1.
Proof. reflexivity. Qed.

Example score_exact_title :
  calculateRelevance lowerASCII "NEON tokyo" neonTokyo = 1.
Proof. run_score. Qed.

Example score_title_and_tag :
  calculateRelevance lowerASCII "neon" neonTokyo = 0.8.
Proof. run_score. Qed.

Example score_tag_only : calculateRelevance lowerASCII "city" neonTokyo = 0.2.
Proof. run_score. Qed.

Example score_category_only :
  calculateRelevance lowerASCII "punk" neonTokyo = 0.3.
Proof. run_score. Qed.

Example score_no_match :
  calculateRelevance lowerASCII "desert" neonTokyo = 0.05.
Proof. run_score. Qed.

Lemma calculateRelevance_correct_witness :
  calculateRelevance lowerASCII "Neon Tokyo" neonTokyo = 1.
Proof.
  destruct (calculateRelevance_correct lowerASCII "Neon Tokyo" neonTokyo)
    as (_ & _ & H & _).
  apply H; [discriminate | reflexivity].
Defined.


Lemma published_relevance_witness :
  exists s0 s1,
    mounted lowerASCII halves = Some s0
    /\ step lowerASCII firstCellOnly s0 Frame = Some s1
    /\ length (cells s1) = 12%nat
    /\ Forall (fun c => 0 <= Cell.relevance c <= 1) (cells s1).
Proof.
  eexists. eexists. split; [reflexivity|]. split; [reflexivity|].
  split.
  { cbn [cells points].
    rewrite generateCells_length, animatePoints_length. reflexivity. }
  apply (published_relevance lowerASCII firstCellOnly).
  eapply reach_step with (e := Frame);
    [apply (reach_mount lowerASCII firstCellOnly halves); reflexivity
    | reflexivity].
Defined.

Lemma radius_invariant_witness :
  exists s0,
    mounted lowerASCII halves = Some s0
    /\ length (points s0) = 12%nat
    /\ Forall (fun p => BASE_RADIUS <= Point.r p <= MAX_RADIUS) (points s0).
Proof.
  eexists. split; [reflexivity|]. split; [reflexivity|].
  destruct (radius_invariant lowerASCII firstCellOnly) as (_ & _ & _ & H).
  apply H.
  apply (reach_mount lowerASCII firstCellOnly halves). reflexivity.
Defined.

Lemma collision_pass_correct_witness :
  Point.x (fst (resolvePair pointA pointD)) = 97.27
  /\ Point.y (fst (resolvePair pointA pointD)) = 96.36
  /\ Point.x (snd (resolvePair pointA pointD)) = 105.73
  /\ Point.y (snd (resolvePair pointA pointD)) = 107.64.
Proof.
  assert (Hd : sqrt ((103 - 100) * (103 - 100) + (104 - 100) * (104 - 100))
               = 5).
  { replace ((103 - 100) * (103 - 100) + (104 - 100) * (104 - 100))
      with (5 * 5) by lra.
    apply sqrt_square. lra. }
  destruct collision_pass_correct as (_ & Hpair & _).
  destruct (Hpair pointA pointD) as [Hnear _].
  cbn [Point.x Point.y Point.r pointA pointD] in Hnear.
  rewrite Hd in Hnear.
  destruct Hnear as (ux & uy & _ & Hx & Hy & _ & E);
    [lra|].
  rewrite E. unfold STIFFNESS. simpl.
  assert (Ux : ux = 0.6) by lra. assert (Uy : uy = 0.8) by lra.
  subst ux uy. repeat split; lra.
Defined.

(** The frame itself does not clamp the relevance: off the radius
    invariant the quotient leaves [[0, 1]]. *)
Example relevance_of_oversized :
  exists c,
    generateCells firstCellOnly [oversized] !! 0%nat = Some c
    /\ Cell.relevance c = 2.
Proof.
  eexists. split; [reflexivity|].
  simpl. unfold BASE_RADIUS, MAX_RADIUS. lra.
Qed.


(** ** Counterexamples *)

(** C8 as stated fails: with two points at the same position and a
    diagram that has a polygon for the first of them only, the frame still
    emits the cell of the second, with no path. *)
Lemma cell_without_polygon_emitted :
  ~ omits_cells_without_polygon firstCellOnly twoCoincident.
Proof.
  intros H.
  apply (H (Cell.mk None (findItem "2") (normalised 60) (100, 100)));
    [|reflexivity].
  apply list_elem_of_lookup. exists 1%nat. reflexivity.
Qed.


(** ** Instances of the further properties *)

Lemma halves_unit (k : nat) : 0 <= halves k < 1.
Proof. unfold halves. lra. Qed.


Lemma distance_pointA_pointF : distance pointA pointF = 300.
Proof.
  unfold distance. cbn [Point.x Point.y pointA pointF].
  replace ((400 - 100) * (400 - 100) + (100 - 100) * (100 - 100))
    with (300 * 300) by lra.
  apply sqrt_square. lra.
Qed.

Lemma relevant_iff_occurs_witness :
  0.1 < calculateRelevance lowerASCII "neon" neonTokyo.
Proof.
  assert (Hq : "neon" <> EmptyString) by discriminate.
  destruct (relevant_iff_occurs lowerASCII "neon" neonTokyo Hq) as [[_ H] _].
  apply H. exists "Neon Tokyo", "", " tokyo".
  split; [left; reflexivity | reflexivity].
Defined.

Lemma latest_query_wins_witness :
  exists pts1,
    updateTargets lowerASCII "neon" twoCoincident = Some pts1
    /\ updateTargets lowerASCII "" pts1
       = updateTargets lowerASCII "" twoCoincident.
Proof.
  eexists. split; [reflexivity|].
  apply (latest_query_wins lowerASCII "neon" "" twoCoincident). reflexivity.
Defined.

Lemma one_point_per_item_witness :
  exists s0 s1,
    mounted lowerASCII halves = Some s0
    /\ step lowerASCII firstCellOnly s0 Frame = Some s1
    /\ length (points s1) = 12%nat
    /\ (cells s1 = []
        \/ length (cells s1) = 12%nat
           /\ Cell.item <$> cells s1 = Some <$> MOCK_ITEMS).
Proof.
  eexists. eexists. split; [reflexivity|]. split; [reflexivity|].
  apply (one_point_per_item lowerASCII firstCellOnly).
  eapply reach_step with (e := Frame);
    [apply (reach_mount lowerASCII firstCellOnly halves); reflexivity
    | reflexivity].
Defined.



Lemma speed_bounded_witness :
  exists s0 s,
    mounted lowerASCII halves = Some s0
    /\ run lowerASCII firstCellOnly [SetQuery "neon"; Frame] s0
       = Some s
    /\ Forall (fun p => in_bounds p /\ speed_ok p) (points s).
Proof.
  eexists. eexists. split; [reflexivity|]. split; [reflexivity|].
  eapply (speed_bounded lowerASCII firstCellOnly halves
            [SetQuery "neon"; Frame]);
    [apply halves_unit | reflexivity | reflexivity].
Defined.


Lemma collide_separated_witness :
  collide [pointA; pointF] = [pointA; pointF].
Proof.
  apply collide_separated. intros i j p1 p2 Hij H1 H2.
  destruct i as [|[|i]], j as [|[|j]]; try lia; try discriminate.
  injection H1 as <-. injection H2 as <-.
  rewrite distance_pointA_pointF. unfold minDistance.
  cbn [Point.r pointA pointF]. lra.
Defined.

